(** * BTS7960 / IBT-2 motor driver sketch for the ESP32

    A shallow embedding of [BTS7960_esp32_controller.ino]: the [MyMotor]
    class (constructor and [setSpeed]), the global [motor] instance and the
    Arduino entry points [setup] and [loop], over an explicit model of the
    MCPWM peripheral, the serial port and the millisecond clock.

    Conventions.
    - A C [int] is a [Z]; arithmetic that the sketch performs on it
      ([abs], [+= 10], [-= 10]) goes through [wrap_int], the 32-bit
      two's-complement wrap-around.
    - A duty cycle is a [float] in the source.  Every duty value the sketch
      builds is either the literal [0.0] or [abs(speed)] for an [int]
      [speed], and an [int] of magnitude below [2^24] converts to a [float]
      without rounding; duty cycles are therefore kept as integers, in
      percent.
    - Effects are explicit state passing over [World]. *)

From Stdlib Require Import ZArith List String Ascii Bool Lia DecimalString.
Import ListNotations.

Local Open Scope string_scope.
Local Open Scope list_scope.
Local Open Scope Z_scope.

(** ** 32-bit [int] arithmetic *)

Module Int32.

Definition min_int : Z := - 2 ^ 31.
Definition max_int : Z := 2 ^ 31 - 1.

Definition in_range (z : Z) : Prop := min_int <= z <= max_int.

(** Reduction of an integer to the 32-bit two's-complement range. *)
Definition wrap_int (z : Z) : Z := (z + 2 ^ 31) mod 2 ^ 32 - 2 ^ 31.

Definition add (a b : Z) : Z := wrap_int (a + b).
Definition sub (a b : Z) : Z := wrap_int (a - b).

(** [abs] on an [int]. *)
Definition abs (a : Z) : Z := wrap_int (Z.abs a).

(** Unary minus on an [int]. *)
Definition neg (a : Z) : Z := wrap_int (- a).

End Int32.

(** ** The MCPWM peripheral (driver/mcpwm.h) *)

Inductive mcpwm_unit_t := MCPWM_UNIT_0 | MCPWM_UNIT_1.
Inductive mcpwm_timer_t := MCPWM_TIMER_0 | MCPWM_TIMER_1 | MCPWM_TIMER_2.
Inductive mcpwm_operator_t := MCPWM_OPR_A | MCPWM_OPR_B.
Inductive mcpwm_io_signals_t :=
  MCPWM0A | MCPWM0B | MCPWM1A | MCPWM1B | MCPWM2A | MCPWM2B.
Inductive mcpwm_counter_type_t :=
  MCPWM_UP_COUNTER | MCPWM_DOWN_COUNTER | MCPWM_UP_DOWN_COUNTER.
Inductive mcpwm_duty_type_t := MCPWM_DUTY_MODE_0 | MCPWM_DUTY_MODE_1.

Inductive polarity := ActiveHigh | ActiveLow.

(** Duty mode 0 makes the duty cycle the share of the period the output is
    high; duty mode 1 makes it the share it is low. *)
Definition polarity_of (m : mcpwm_duty_type_t) : polarity :=
  match m with
  | MCPWM_DUTY_MODE_0 => ActiveHigh
  | MCPWM_DUTY_MODE_1 => ActiveLow
  end.

Record mcpwm_config_t := {
  frequency : Z;                          (* Hz *)
  cmpr_a : Z;                             (* percent *)
  cmpr_b : Z;                             (* percent *)
  duty_mode : mcpwm_duty_type_t;
  counter_mode : mcpwm_counter_type_t
}.

Definition unit_eqb (a b : mcpwm_unit_t) : bool :=
  match a, b with
  | MCPWM_UNIT_0, MCPWM_UNIT_0 | MCPWM_UNIT_1, MCPWM_UNIT_1 => true
  | _, _ => false
  end.

Definition timer_eqb (a b : mcpwm_timer_t) : bool :=
  match a, b with
  | MCPWM_TIMER_0, MCPWM_TIMER_0
  | MCPWM_TIMER_1, MCPWM_TIMER_1
  | MCPWM_TIMER_2, MCPWM_TIMER_2 => true
  | _, _ => false
  end.

Definition operator_eqb (a b : mcpwm_operator_t) : bool :=
  match a, b with
  | MCPWM_OPR_A, MCPWM_OPR_A | MCPWM_OPR_B, MCPWM_OPR_B => true
  | _, _ => false
  end.

Definition signal_eqb (a b : mcpwm_io_signals_t) : bool :=
  match a, b with
  | MCPWM0A, MCPWM0A | MCPWM0B, MCPWM0B | MCPWM1A, MCPWM1A
  | MCPWM1B, MCPWM1B | MCPWM2A, MCPWM2A | MCPWM2B, MCPWM2B => true
  | _, _ => false
  end.

(** One call of [mcpwm_set_duty], as the peripheral receives it. *)
Record duty_write := {
  dw_unit : mcpwm_unit_t;
  dw_timer : mcpwm_timer_t;
  dw_operator : mcpwm_operator_t;
  dw_duty : Z
}.

(** ** The world the sketch runs in *)

Record World := {
  (* GPIO matrix: the pin each MCPWM output signal is routed to *)
  gpio : mcpwm_unit_t -> mcpwm_io_signals_t -> option Z;
  (* last configuration applied to each timer, if any *)
  timer_config : mcpwm_unit_t -> mcpwm_timer_t -> option mcpwm_config_t;
  (* duty cycle of each operator output, in percent *)
  duty : mcpwm_unit_t -> mcpwm_timer_t -> mcpwm_operator_t -> Z;
  (* every [mcpwm_set_duty] call so far, oldest first *)
  duty_writes : list duty_write;
  (* baud rate once [Serial.begin] has run *)
  baud : option Z;
  (* every character sent to the serial port so far *)
  serial : string;
  (* milliseconds spent in [delay] *)
  millis : Z
}.

(** The chip after reset: nothing routed, nothing configured, all outputs
    at 0%, nothing printed. *)
Definition power_on : World := {|
  gpio := fun _ _ => None;
  timer_config := fun _ _ => None;
  duty := fun _ _ _ => 0;
  duty_writes := [];
  baud := None;
  serial := "";
  millis := 0
|}.

Definition mcpwm_gpio_init (u : mcpwm_unit_t) (sig : mcpwm_io_signals_t)
    (pin : Z) (w : World) : World := {|
  gpio := fun u' sig' =>
    if unit_eqb u u' && signal_eqb sig sig' then Some pin else gpio w u' sig';
  timer_config := timer_config w;
  duty := duty w;
  duty_writes := duty_writes w;
  baud := baud w;
  serial := serial w;
  millis := millis w
|}.

(** [mcpwm_init] stores the configuration of the timer and loads both
    operators with the configured initial duty cycles. *)
Definition mcpwm_init (u : mcpwm_unit_t) (t : mcpwm_timer_t)
    (conf : mcpwm_config_t) (w : World) : World := {|
  gpio := gpio w;
  timer_config := fun u' t' =>
    if unit_eqb u u' && timer_eqb t t' then Some conf else timer_config w u' t';
  duty := fun u' t' o' =>
    if unit_eqb u u' && timer_eqb t t' then
      match o' with
      | MCPWM_OPR_A => cmpr_a conf
      | MCPWM_OPR_B => cmpr_b conf
      end
    else duty w u' t' o';
  duty_writes := duty_writes w;
  baud := baud w;
  serial := serial w;
  millis := millis w
|}.

Definition mcpwm_set_duty (u : mcpwm_unit_t) (t : mcpwm_timer_t)
    (o : mcpwm_operator_t) (d : Z) (w : World) : World := {|
  gpio := gpio w;
  timer_config := timer_config w;
  duty := fun u' t' o' =>
    if unit_eqb u u' && timer_eqb t t' && operator_eqb o o' then d
    else duty w u' t' o';
  duty_writes := duty_writes w ++ [ {| dw_unit := u; dw_timer := t;
                                       dw_operator := o; dw_duty := d |} ];
  baud := baud w;
  serial := serial w;
  millis := millis w
|}.

(** ** The serial port and the clock (Arduino core) *)

Definition CRLF : string := String "013" (String "010" EmptyString).

Module Serial.

Definition begin (rate : Z) (w : World) : World := {|
  gpio := gpio w;
  timer_config := timer_config w;
  duty := duty w;
  duty_writes := duty_writes w;
  baud := Some rate;
  serial := serial w;
  millis := millis w
|}.

Definition print (s : string) (w : World) : World := {|
  gpio := gpio w;
  timer_config := timer_config w;
  duty := duty w;
  duty_writes := duty_writes w;
  baud := baud w;
  serial := serial w ++ s;
  millis := millis w
|}.

(** [Serial.print(int)]: the number in decimal, with a leading minus sign
    when it is negative. *)
Definition print_int (n : Z) : World -> World :=
  print (NilZero.string_of_int (Z.to_int n)).

Definition println (s : string) (w : World) : World :=
  print CRLF (print s w).

End Serial.

Definition delay (ms : Z) (w : World) : World := {|
  gpio := gpio w;
  timer_config := timer_config w;
  duty := duty w;
  duty_writes := duty_writes w;
  baud := baud w;
  serial := serial w;
  millis := millis w + ms
|}.

(** Statement sequencing. *)
Notation "c1 ;; c2" := (fun w : World => c2 (c1 w))
  (at level 61, right associativity, only parsing).

(** ** class MyMotor *)

Record MyMotor := {
  forwardPin : Z;
  reversePin : Z
}.

(** The constructor [MyMotor(int forwardPin, int reversePin)]. *)
Definition MyMotor_new (forwardPin reversePin : Z) (w : World)
    : MyMotor * World :=
  let this := {| forwardPin := forwardPin; reversePin := reversePin |} in
  let w := mcpwm_gpio_init MCPWM_UNIT_0 MCPWM0A forwardPin w in
  let w := mcpwm_gpio_init MCPWM_UNIT_0 MCPWM0B reversePin w in
  let pwm_config := {|
    frequency := 1000;
    cmpr_a := 0;
    cmpr_b := 0;
    counter_mode := MCPWM_UP_COUNTER;
    duty_mode := MCPWM_DUTY_MODE_0
  |} in
  (this, mcpwm_init MCPWM_UNIT_0 MCPWM_TIMER_0 pwm_config w).

(** [void MyMotor::setSpeed(int speed)]. *)
Definition setSpeed (this : MyMotor) (speed : Z) (w : World) : World :=
  let speed := if speed <? -100 then -100 else speed in
  let speed := if speed >? 100 then 100 else speed in
  let dutyCycle := Int32.abs speed in
  if speed >? 0 then
    (mcpwm_set_duty MCPWM_UNIT_0 MCPWM_TIMER_0 MCPWM_OPR_A dutyCycle ;;
     mcpwm_set_duty MCPWM_UNIT_0 MCPWM_TIMER_0 MCPWM_OPR_B 0 ;;
     Serial.print "Forward Speed: " ;;
     Serial.print_int speed ;;
     Serial.println "%") w
  else if speed <? 0 then
    (mcpwm_set_duty MCPWM_UNIT_0 MCPWM_TIMER_0 MCPWM_OPR_A 0 ;;
     mcpwm_set_duty MCPWM_UNIT_0 MCPWM_TIMER_0 MCPWM_OPR_B dutyCycle ;;
     Serial.print "Reverse Speed: " ;;
     Serial.print_int speed ;;
     Serial.println "%") w
  else
    (mcpwm_set_duty MCPWM_UNIT_0 MCPWM_TIMER_0 MCPWM_OPR_A 0 ;;
     mcpwm_set_duty MCPWM_UNIT_0 MCPWM_TIMER_0 MCPWM_OPR_B 0 ;;
     Serial.println "Motor Stopped") w.

(** ** The sketch: global instance, [setup] and [loop] *)

(** [MyMotor motor(4, 15);] runs at start-up, on the chip as reset leaves
    it. *)
Definition boot : MyMotor * World := MyMotor_new 4 15 power_on.
Definition motor : MyMotor := fst boot.

Definition setup : World -> World :=
  Serial.begin 115200 ;;
  Serial.println "Starting Motor Test...".

(** [for (int i = init; cond(i); i = step(i)) body(i);] with a bound on the
    number of times the condition is tested: [None] when the bound is
    reached before the condition turns false. *)
Fixpoint for_loop (fuel : nat) (cond : Z -> bool) (step : Z -> Z)
    (body : Z -> World -> World) (i : Z) (w : World) : option World :=
  match fuel with
  | O => None
  | S fuel' =>
      if cond i then for_loop fuel' cond step body (step i) (body i w)
      else Some w
  end.

Notation "'do' x <- c1 ; c2" :=
  (match c1 with Some x => c2 | None => None end)
  (at level 62, x name, c1 at next level, right associativity, only parsing).

(** One pass of [void loop()]; [fuel] bounds each of its four [for]
    statements. *)
Definition loop (fuel : nat) (w : World) : option World :=
  (* forward cycle: ramp 0 -> +100 % *)
  do w <- for_loop fuel (fun speed => speed <=? 100)
            (fun speed => Int32.add speed 10)
            (fun speed => setSpeed motor speed ;; delay 500) 0 w ;
  let w := delay 2000 w in
  (* ramp down: +100 % -> 0 % *)
  do w <- for_loop fuel (fun speed => speed >=? 0)
            (fun speed => Int32.sub speed 10)
            (fun speed => setSpeed motor speed ;; delay 500) 100 w ;
  let w := delay 2000 w in
  (* reverse cycle: 0 -> -100 % *)
  do w <- for_loop fuel (fun speed => speed >=? -100)
            (fun speed => Int32.sub speed 10)
            (fun speed => setSpeed motor speed ;; delay 500) 0 w ;
  let w := delay 2000 w in
  (* ramp down: -100 % -> 0 % *)
  do w <- for_loop fuel (fun speed => speed <=? 0)
            (fun speed => Int32.add speed 10)
            (fun speed => setSpeed motor speed ;; delay 500) (-100) w ;
  Some (delay 2000 w).

(** A sequence of [setSpeed] calls, first call first. *)
Definition setSpeeds (this : MyMotor) (speeds : list Z) (w : World) : World :=
  fold_left (fun w s => setSpeed this s w) speeds w.

(** ** What is observed of the world *)

(** The constructor routes MCPWM0A (operator A of unit 0, timer 0) to the
    forward input RPWM and MCPWM0B (operator B) to the reverse input LPWM. *)
Definition forward_duty (w : World) : Z :=
  duty w MCPWM_UNIT_0 MCPWM_TIMER_0 MCPWM_OPR_A.
Definition reverse_duty (w : World) : Z :=
  duty w MCPWM_UNIT_0 MCPWM_TIMER_0 MCPWM_OPR_B.

Definition channels (w : World) : Z * Z := (forward_duty w, reverse_duty w).

(** At most one of the two bridge inputs is driven. *)
Definition exclusive (w : World) : Prop :=
  forward_duty w = 0 \/ reverse_duty w = 0.

(** Direction of the motor, read off the two inputs of the bridge as the
    README tabulates it: PWM on RPWM is forward, PWM on LPWM is reverse,
    both at 0% is off.  Both inputs driven at once is none of the three. *)
Inductive Direction := Forward | Reverse | Stopped.

Definition direction (w : World) : option Direction :=
  let f := forward_duty w in
  let r := reverse_duty w in
  if (0 <? f) && (r =? 0) then Some Forward
  else if (f =? 0) && (0 <? r) then Some Reverse
  else if (f =? 0) && (r =? 0) then Some Stopped
  else None.

(** Direction named by the sign of a speed. *)
Definition direction_of_sign (s : Z) : Direction :=
  if 0 <? s then Forward else if s <? 0 then Reverse else Stopped.

(** The duty values handed to [mcpwm_set_duty] for operator [o] of unit 0,
    timer 0, oldest first. *)
Definition duties_on (o : mcpwm_operator_t) (l : list duty_write) : list Z :=
  map dw_duty
    (filter (fun d => unit_eqb (dw_unit d) MCPWM_UNIT_0
                      && timer_eqb (dw_timer d) MCPWM_TIMER_0
                      && operator_eqb (dw_operator d) o) l).

(** The pair (operator, duty) of each write. *)
Definition write_pairs (l : list duty_write) : list (mcpwm_operator_t * Z) :=
  map (fun d => (dw_operator d, dw_duty d)) l.

(** Saturation of a speed to [-100, 100]. *)
Definition saturate (s : Z) : Z := Z.max (-100) (Z.min s 100).

(** *** Reading a status line back *)

Fixpoint strip_prefix (p s : string) : option string :=
  match p, s with
  | EmptyString, _ => Some s
  | String c p', String d s' =>
      if Ascii.eqb c d then strip_prefix p' s' else None
  | String _ _, EmptyString => None
  end.

(** [s] without its last character, when that character is [c]. *)
Fixpoint strip_last (c : ascii) (s : string) : option string :=
  match s with
  | EmptyString => None
  | String d EmptyString => if Ascii.eqb c d then Some EmptyString else None
  | String d s' => option_map (String d) (strip_last c s')
  end.

(** The number between a label and the closing percent sign. *)
Definition read_percent (label line : string) : option Z :=
  match strip_prefix label line with
  | None => None
  | Some rest =>
      match strip_last "%" rest with
      | None => None
      | Some digits => option_map Z.of_int (NilZero.int_of_string digits)
      end
  end.

(** Direction and magnitude a reader takes from one status line. *)
Definition read_status (line : string) : option (Direction * Z) :=
  if String.eqb line "Motor Stopped" then Some (Stopped, 0)
  else
    match read_percent "Forward Speed: " line with
    | Some n => Some (Forward, Z.abs n)
    | None =>
        match read_percent "Reverse Speed: " line with
        | Some n => Some (Reverse, Z.abs n)
        | None => None
        end
    end.

Fixpoint no_line_break (s : string) : bool :=
  match s with
  | EmptyString => true
  | String c s' =>
      negb (Ascii.eqb c "013") && negb (Ascii.eqb c "010") && no_line_break s'
  end.

(** The line [setSpeed] prints for an already saturated speed, without its
    line terminator. *)
Definition status_line (speed : Z) : string :=
  if 0 <? speed then
    "Forward Speed: " ++ NilZero.string_of_int (Z.to_int speed) ++ "%"
  else if speed <? 0 then
    "Reverse Speed: " ++ NilZero.string_of_int (Z.to_int speed) ++ "%"
  else "Motor Stopped".

Definition Direction_eqb (a b : Direction) : bool :=
  match a, b with
  | Forward, Forward | Reverse, Reverse | Stopped, Stopped => true
  | _, _ => false
  end.

(** Whether the status line of speed [z] carries no line break and reads
    back as the direction and the magnitude of [z]. *)
Definition status_line_ok (z : Z) : bool :=
  no_line_break (status_line z) &&
  match read_status (status_line z) with
  | Some (d, m) => Direction_eqb d (direction_of_sign z) && (m =? Z.abs z)
  | None => false
  end.

(** *** The demonstration ramp *)

(** The values the variable of a [for] statement takes when its body runs,
    under the same bound as [for_loop]. *)
Fixpoint iterations (fuel : nat) (cond : Z -> bool) (step : Z -> Z) (i : Z)
    : option (list Z) :=
  match fuel with
  | O => None
  | S fuel' =>
      if cond i then option_map (cons i) (iterations fuel' cond step (step i))
      else Some []
  end.

(** The body of each [for] statement of [loop], run for a list of speeds. *)
Definition ramp (speeds : list Z) (w : World) : World :=
  fold_left (fun w speed => delay 500 (setSpeed motor speed w)) speeds w.

Definition write (o : mcpwm_operator_t) (d : Z) : duty_write :=
  {| dw_unit := MCPWM_UNIT_0; dw_timer := MCPWM_TIMER_0;
     dw_operator := o; dw_duty := d |}.

(** Forward channel at [d] percent, reverse channel off; and the mirror. *)
Definition forward_at (d : Z) : list duty_write :=
  [write MCPWM_OPR_A d; write MCPWM_OPR_B 0].
Definition reverse_at (d : Z) : list duty_write :=
  [write MCPWM_OPR_A 0; write MCPWM_OPR_B d].

Definition up : list Z := [0; 10; 20; 30; 40; 50; 60; 70; 80; 90; 100].
Definition down : list Z := [100; 90; 80; 70; 60; 50; 40; 30; 20; 10; 0].

(** The speeds one pass of [loop] hands to [setSpeed], in order. *)
Definition demo_speeds : list Z :=
  up ++ down ++ map Z.opp up ++ map Z.opp down.

(** Lines as the serial port carries them, each closed by CR LF. *)
Definition lines (l : list string) : string :=
  fold_right (fun line rest => (line ++ CRLF ++ rest)%string) EmptyString l.

(** *** The channels write by write *)

(** Effect of one logged write on the pair (forward duty, reverse duty). *)
Definition apply_write (p : Z * Z) (d : duty_write) : Z * Z :=
  if unit_eqb (dw_unit d) MCPWM_UNIT_0 && timer_eqb (dw_timer d) MCPWM_TIMER_0
  then
    match dw_operator d with
    | MCPWM_OPR_A => (dw_duty d, snd p)
    | MCPWM_OPR_B => (fst p, dw_duty d)
    end
  else p.

(** The pair of duties after each write of a list, oldest first, starting
    from the pair [p]. *)
Fixpoint channel_trace (p : Z * Z) (l : list duty_write) : list (Z * Z) :=
  match l with
  | [] => []
  | d :: l' => apply_write p d :: channel_trace (apply_write p d) l'
  end.

(** The writes of a list made one after the other. *)
Definition replay (l : list duty_write) (w : World) : World :=
  fold_left
    (fun w d => mcpwm_set_duty (dw_unit d) (dw_timer d) (dw_operator d)
                  (dw_duty d) w) l w.

(** Two worlds whose operators all carry the same duty. *)
Definition same_duty (w1 w2 : World) : Prop :=
  forall u t o, duty w1 u t o = duty w2 u t o.

(** At most one duty of a pair is nonzero. *)
Definition exclusive_pair (p : Z * Z) : Prop := fst p = 0 \/ snd p = 0.

(** The world one pass of [loop] leaves: four ramps, each followed by a
    hold of two seconds. *)
Definition demo_pass (w : World) : World :=
  delay 2000 (ramp (map Z.opp down)
    (delay 2000 (ramp (map Z.opp up)
      (delay 2000 (ramp down
        (delay 2000 (ramp up w))))))).

(** The duty-cycle writes of one pass. *)
Definition demo_writes : list duty_write :=
  flat_map forward_at up ++ flat_map forward_at down ++
  flat_map reverse_at up ++ flat_map reverse_at down.

(** *** The sketch as the Arduino core runs it *)

(** [loop] is called again each time it returns; [loops n] is [n] passes. *)
Fixpoint loops (n : nat) (fuel : nat) (w : World) : option World :=
  match n with
  | O => Some w
  | S n' => do w' <- loop fuel w ; loops n' fuel w'
  end.

(** Start-up to the end of the [n]th pass of [loop]. *)
Definition sketch (n : nat) (fuel : nat) : option World :=
  loops n fuel (setup (snd boot)).

(** * Properties *)

(** ** Arithmetic and strings *)

Lemma wrap_int_small (z : Z) : Int32.in_range z -> Int32.wrap_int z = z.
Proof.
  unfold Int32.in_range, Int32.min_int, Int32.max_int, Int32.wrap_int.
  intros Hz. rewrite Z.mod_small; lia.
Qed.

Lemma abs_small (z : Z) : -100 <= z <= 100 -> Int32.abs z = Z.abs z.
Proof.
  intros Hz. unfold Int32.abs. apply wrap_int_small.
  unfold Int32.in_range, Int32.min_int, Int32.max_int. lia.
Qed.

Lemma saturate_range (s : Z) : -100 <= saturate s <= 100.
Proof. unfold saturate. lia. Qed.

Lemma saturate_id (s : Z) : -100 <= s <= 100 -> saturate s = s.
Proof. unfold saturate. lia. Qed.

Lemma saturate_idem (s : Z) : saturate (saturate s) = saturate s.
Proof. apply saturate_id, saturate_range. Qed.

Lemma direction_of_sign_saturate (s : Z) :
  direction_of_sign (saturate s) = direction_of_sign s.
Proof.
  unfold direction_of_sign, saturate.
  destruct (Z.ltb_spec 0 s), (Z.ltb_spec s 0);
    destruct (Z.ltb_spec 0 (Z.max (-100) (Z.min s 100)));
    destruct (Z.ltb_spec (Z.max (-100) (Z.min s 100)) 0);
    reflexivity || lia.
Qed.

Lemma string_app_assoc (a b c : string) :
  ((a ++ b) ++ c = a ++ b ++ c)%string.
Proof. induction a as [|x a IH]; simpl; [reflexivity | now rewrite IH]. Qed.

(** A boolean property checked on each of the 201 saturated speeds holds on
    the whole interval. *)
Lemma percent_range_check (P : Z -> bool) :
  forallb P (map (fun n => Z.of_nat n - 100) (seq 0 201)) = true ->
  forall z, -100 <= z <= 100 -> P z = true.
Proof.
  intros Hall z Hz. rewrite forallb_forall in Hall. apply Hall.
  apply in_map_iff. exists (Z.to_nat (z + 100)). split; [lia|].
  apply in_seq. lia.
Qed.

(** ** What one [setSpeed] call does to each part of the world *)

(** The three ways through [setSpeed], by the sign of the saturated speed. *)
Lemma setSpeed_branches (this : MyMotor) (s : Z) (w : World) :
  let c := saturate s in
  setSpeed this s w =
    if 0 <? c then
      Serial.println "%" (Serial.print_int c (Serial.print "Forward Speed: "
        (mcpwm_set_duty MCPWM_UNIT_0 MCPWM_TIMER_0 MCPWM_OPR_B 0
          (mcpwm_set_duty MCPWM_UNIT_0 MCPWM_TIMER_0 MCPWM_OPR_A (Z.abs c) w))))
    else if c <? 0 then
      Serial.println "%" (Serial.print_int c (Serial.print "Reverse Speed: "
        (mcpwm_set_duty MCPWM_UNIT_0 MCPWM_TIMER_0 MCPWM_OPR_B (Z.abs c)
          (mcpwm_set_duty MCPWM_UNIT_0 MCPWM_TIMER_0 MCPWM_OPR_A 0 w))))
    else
      Serial.println "Motor Stopped"
        (mcpwm_set_duty MCPWM_UNIT_0 MCPWM_TIMER_0 MCPWM_OPR_B 0
          (mcpwm_set_duty MCPWM_UNIT_0 MCPWM_TIMER_0 MCPWM_OPR_A 0 w)).
Proof.
  intros c. unfold setSpeed. cbv zeta.
  assert (Hc : (if (if s <? -100 then -100 else s) >? 100 then 100
                else if s <? -100 then -100 else s) = c).
  { unfold c, saturate. rewrite Z.gtb_ltb.
    destruct (Z.ltb_spec s (-100)) as [H1|H1];
      [ change (100 <? -100) with false; cbv iota; lia |].
    destruct (Z.ltb_spec 100 s); lia. }
  rewrite Hc, Z.gtb_ltb, abs_small by apply saturate_range.
  reflexivity.
Qed.

Ltac by_branch this s w :=
  pose proof (saturate_range s);
  rewrite (setSpeed_branches this s w); cbv zeta;
  destruct (Z.ltb_spec 0 (saturate s));
    [ | destruct (Z.ltb_spec (saturate s) 0) ].

Lemma setSpeed_forward_duty (this : MyMotor) (s : Z) (w : World) :
  forward_duty (setSpeed this s w) = Z.max (saturate s) 0.
Proof. by_branch this s w; cbn; lia. Qed.

Lemma setSpeed_reverse_duty (this : MyMotor) (s : Z) (w : World) :
  reverse_duty (setSpeed this s w) = Z.max (- saturate s) 0.
Proof. by_branch this s w; cbn; lia. Qed.

Lemma setSpeed_channels (this : MyMotor) (s : Z) (w : World) :
  channels (setSpeed this s w) = (Z.max (saturate s) 0, Z.max (- saturate s) 0).
Proof.
  unfold channels. now rewrite setSpeed_forward_duty, setSpeed_reverse_duty.
Qed.

(** The two writes of a call: operator A first, operator B second. *)
Lemma setSpeed_duty_writes (this : MyMotor) (s : Z) (w : World) :
  duty_writes (setSpeed this s w) =
  duty_writes w ++
    [ {| dw_unit := MCPWM_UNIT_0; dw_timer := MCPWM_TIMER_0;
         dw_operator := MCPWM_OPR_A; dw_duty := Z.max (saturate s) 0 |};
      {| dw_unit := MCPWM_UNIT_0; dw_timer := MCPWM_TIMER_0;
         dw_operator := MCPWM_OPR_B; dw_duty := Z.max (- saturate s) 0 |} ].
Proof.
  by_branch this s w; cbn; rewrite <- app_assoc; cbn;
    repeat f_equal; lia.
Qed.

Lemma setSpeed_serial (this : MyMotor) (s : Z) (w : World) :
  serial (setSpeed this s w) =
  (serial w ++ status_line (saturate s) ++ CRLF)%string.
Proof.
  unfold status_line.
  by_branch this s w; unfold Serial.println, Serial.print_int; cbn [serial Serial.print mcpwm_set_duty];
    now rewrite ?string_app_assoc.
Qed.

Lemma setSpeed_direction (this : MyMotor) (s : Z) (w : World) :
  direction (setSpeed this s w) = Some (direction_of_sign s).
Proof.
  rewrite <- direction_of_sign_saturate.
  unfold direction. rewrite setSpeed_forward_duty, setSpeed_reverse_duty.
  pose proof (saturate_range s). unfold direction_of_sign. cbv zeta.
  destruct (Z.ltb_spec 0 (saturate s)); [ | destruct (Z.ltb_spec (saturate s) 0) ].
  - replace (Z.max (saturate s) 0) with (saturate s) by lia.
    replace (Z.max (- saturate s) 0) with 0 by lia.
    destruct (Z.ltb_spec 0 (saturate s)); [reflexivity | lia].
  - replace (Z.max (saturate s) 0) with 0 by lia.
    replace (Z.max (- saturate s) 0) with (- saturate s) by lia.
    cbn. destruct (Z.ltb_spec 0 (- saturate s)); [reflexivity | lia].
  - replace (saturate s) with 0 by lia. reflexivity.
Qed.

(** A call saturates its argument before anything else. *)
Lemma setSpeed_saturate (this : MyMotor) (s : Z) (w : World) :
  setSpeed this s w = setSpeed this (saturate s) w.
Proof.
  rewrite (setSpeed_branches this s w), (setSpeed_branches this (saturate s) w).
  cbv zeta. now rewrite saturate_idem.
Qed.

Lemma setSpeeds_snoc (this : MyMotor) (calls : list Z) (s : Z) (w : World) :
  setSpeeds this (calls ++ [s]) w = setSpeed this s (setSpeeds this calls w).
Proof. unfold setSpeeds. now rewrite fold_left_app. Qed.

(** ** The sketch on concrete inputs *)

Example setSpeed_150 :
  let w := setSpeed motor 150 (snd boot) in
  channels w = (100, 0) /\ direction w = Some Forward /\
  serial w = ("Forward Speed: 100%" ++ CRLF)%string.
Proof. repeat split. Qed.

Example setSpeed_minus_150 :
  let w := setSpeed motor (-150) (snd boot) in
  channels w = (0, 100) /\ direction w = Some Reverse /\
  serial w = ("Reverse Speed: -100%" ++ CRLF)%string.
Proof. repeat split. Qed.

Example setSpeed_0 :
  let w := setSpeed motor 0 (setSpeed motor 37 (snd boot)) in
  channels w = (0, 0) /\ direction w = Some Stopped /\
  serial w = ("Forward Speed: 37%" ++ CRLF ++ "Motor Stopped" ++ CRLF)%string.
Proof. repeat split. Qed.

Example setSpeed_37 :
  channels (setSpeed motor 37 (snd boot)) = (37, 0) /\
  channels (setSpeed motor (-37) (snd boot)) = (0, 37).
Proof. split; reflexivity. Qed.

Example setup_banner :
  let w := setup (snd boot) in
  baud w = Some 115200 /\
  serial w = ("Starting Motor Test..." ++ CRLF)%string /\
  gpio w MCPWM_UNIT_0 MCPWM0A = Some 4 /\
  gpio w MCPWM_UNIT_0 MCPWM0B = Some 15.
Proof. repeat split. Qed.

(** One pass of [loop] stops short when a [for] statement may test its
    condition only eleven times, and ends after 30 seconds of delays when it
    may test it twelve times. *)
Example loop_fuel :
  loop 11 (snd boot) = None /\
  option_map millis (loop 12 (snd boot)) = Some 30000.
Proof. split; vm_compute; reflexivity. Qed.

(** ** The specified properties of [setSpeed] *)

(** C1: for every speed [s] in [-100, 100], after [setSpeed s] the forward
    channel is at [max s 0] percent and the reverse channel at [max (-s) 0];
    when [s] is not zero exactly one of the two is nonzero, and when [s] is
    zero both are zero. *)
Theorem setSpeed_in_range_duties (this : MyMotor) (s : Z) (w : World) :
  -100 <= s <= 100 ->
  let w' := setSpeed this s w in
  forward_duty w' = Z.max s 0 /\
  reverse_duty w' = Z.max (- s) 0 /\
  (s <> 0 ->
     (forward_duty w' <> 0 /\ reverse_duty w' = 0) \/
     (forward_duty w' = 0 /\ reverse_duty w' <> 0)) /\
  (s = 0 -> forward_duty w' = 0 /\ reverse_duty w' = 0).
Proof.
  intros Hs w'. unfold w'.
  rewrite setSpeed_forward_duty, setSpeed_reverse_duty, (saturate_id s Hs).
  lia.
Qed.

Lemma setSpeed_in_range_duties_witness :
  -100 <= -37 <= 100 /\
  let w' := setSpeed motor (-37) (snd boot) in
  forward_duty w' = Z.max (-37) 0 /\
  reverse_duty w' = Z.max (- -37) 0 /\
  (-37 <> 0 ->
     (forward_duty w' <> 0 /\ reverse_duty w' = 0) \/
     (forward_duty w' = 0 /\ reverse_duty w' <> 0)) /\
  (-37 = 0 -> forward_duty w' = 0 /\ reverse_duty w' = 0).
Proof.
  split; [lia | apply (setSpeed_in_range_duties motor (-37) (snd boot)); lia].
Defined.

(** C2: [setSpeed] saturates a speed outside [-100, 100] and reports no
    error.  Above 100 the call is the call with 100: the duty computed is
    100, on the forward channel, and the only text printed is the status line
    of speed 100.  Below -100 the call is the call with -100. *)
Theorem setSpeed_saturates (this : MyMotor) (s : Z) (w : World) :
  (100 < s ->
     setSpeed this s w = setSpeed this 100 w /\
     channels (setSpeed this s w) = (100, 0) /\
     serial (setSpeed this s w) =
       (serial w ++ "Forward Speed: 100%" ++ CRLF)%string) /\
  (s < -100 ->
     setSpeed this s w = setSpeed this (-100) w /\
     channels (setSpeed this s w) = (0, 100) /\
     serial (setSpeed this s w) =
       (serial w ++ "Reverse Speed: -100%" ++ CRLF)%string).
Proof.
  split; intros Hs.
  - assert (Hc : saturate s = 100) by (unfold saturate; lia).
    rewrite setSpeed_channels, setSpeed_serial, (setSpeed_saturate this s w), Hc.
    repeat split.
  - assert (Hc : saturate s = -100) by (unfold saturate; lia).
    rewrite setSpeed_channels, setSpeed_serial, (setSpeed_saturate this s w), Hc.
    repeat split.
Qed.

Lemma setSpeed_saturates_witness :
  (100 < 150 /\
   setSpeed motor 150 (snd boot) = setSpeed motor 100 (snd boot) /\
   channels (setSpeed motor 150 (snd boot)) = (100, 0) /\
   serial (setSpeed motor 150 (snd boot)) =
     (serial (snd boot) ++ "Forward Speed: 100%" ++ CRLF)%string) /\
  (-150 < -100 /\
   setSpeed motor (-150) (snd boot) = setSpeed motor (-100) (snd boot) /\
   channels (setSpeed motor (-150) (snd boot)) = (0, 100) /\
   serial (setSpeed motor (-150) (snd boot)) =
     (serial (snd boot) ++ "Reverse Speed: -100%" ++ CRLF)%string).
Proof.
  split; (split; [lia |]).
  - apply (proj1 (setSpeed_saturates motor 150 (snd boot))). lia.
  - apply (proj2 (setSpeed_saturates motor (-150) (snd boot))). lia.
Defined.

(** C3, amended to the states between calls: at most one of the two
    channels has a nonzero duty cycle after the constructor, after a
    [setSpeed] call whatever the state before it, and so after every
    sequence of [setSpeed] calls that follows the constructor.  Inside a
    call it can fail, as the lemma after this one shows. *)
Theorem exclusive_invariant :
  (forall forwardPin reversePin w,
     exclusive (snd (MyMotor_new forwardPin reversePin w))) /\
  (forall this s w, exclusive (setSpeed this s w)) /\
  (forall forwardPin reversePin w calls,
     let (this, w0) := MyMotor_new forwardPin reversePin w in
     exclusive (setSpeeds this calls w0)).
Proof.
  assert (Hset : forall this s w, exclusive (setSpeed this s w)).
  { intros this s w. unfold exclusive.
    rewrite setSpeed_forward_duty, setSpeed_reverse_duty. lia. }
  repeat split.
  - intros. left. reflexivity.
  - exact Hset.
  - intros forwardPin reversePin w calls.
    destruct (MyMotor_new forwardPin reversePin w) as [this w0] eqn:Hnew.
    destruct calls as [|s calls] using rev_ind.
    + replace w0 with (snd (MyMotor_new forwardPin reversePin w))
        by now rewrite Hnew.
      left. reflexivity.
    + rewrite setSpeeds_snoc. apply Hset.
Qed.

(** C3 as stated, at any time, fails inside a call.  After the constructor
    and [setSpeed (-50)] the reverse channel is at 50%.  [setSpeed 50] then
    raises the forward channel to 50% and only afterwards clears the reverse
    channel: in the world between its two writes both channels are at
    50%. *)
Lemma exclusive_at_any_time_counterexample :
  let w := setSpeed motor (-50) (snd boot) in
  let between := mcpwm_set_duty MCPWM_UNIT_0 MCPWM_TIMER_0 MCPWM_OPR_A 50 w in
  exclusive w /\
  setSpeed motor 50 w =
    Serial.println "%" (Serial.print_int 50 (Serial.print "Forward Speed: "
      (mcpwm_set_duty MCPWM_UNIT_0 MCPWM_TIMER_0 MCPWM_OPR_B 0 between))) /\
  channels between = (50, 50) /\
  ~ exclusive between.
Proof.
  cbv zeta. split; [left; reflexivity|].
  split; [reflexivity|]. split; [reflexivity|].
  intros [H|H]; vm_compute in H; discriminate H.
Qed.

(** C4: calling [setSpeed s] twice in a row leaves the channels as one call
    does. *)
Theorem setSpeed_idempotent (this : MyMotor) (s : Z) (w : World) :
  channels (setSpeed this s (setSpeed this s w)) = channels (setSpeed this s w).
Proof. now rewrite !setSpeed_channels. Qed.

(** C9: whatever integer [setSpeed] is given, the call makes two duty-cycle
    writes and the duty of each lies in [0, 100]. *)
Theorem setSpeed_writes_in_range (this : MyMotor) (s : Z) (w : World) :
  exists ws,
    duty_writes (setSpeed this s w) = duty_writes w ++ ws /\
    List.length ws = 2%nat /\
    Forall (fun d => 0 <= dw_duty d <= 100) ws.
Proof.
  eexists. split; [apply setSpeed_duty_writes|].
  pose proof (saturate_range s).
  split; [reflexivity|].
  repeat constructor; cbn; lia.
Qed.

(** C10: the channels after [setSpeed s] and the text it prints are
    functions of [s] alone: from any two worlds, and on any two motor
    objects, the call leaves the same pair of duties and appends the same
    status line. *)
Theorem setSpeed_history_independent
    (this1 this2 : MyMotor) (s : Z) (w1 w2 : World) :
  channels (setSpeed this1 s w1) = channels (setSpeed this2 s w2) /\
  serial (setSpeed this1 s w1) =
    (serial w1 ++ status_line (saturate s) ++ CRLF)%string /\
  serial (setSpeed this2 s w2) =
    (serial w2 ++ status_line (saturate s) ++ CRLF)%string.
Proof. rewrite !setSpeed_channels, !setSpeed_serial. repeat split. Qed.

(** C6: the motor is stopped once constructed, and after any sequence of
    calls its direction is forward, reverse or stopped as the argument of
    the last [setSpeed] call is positive, negative or zero, whatever came
    before that call. *)
Theorem direction_follows_last_call :
  (forall forwardPin reversePin w,
     direction (snd (MyMotor_new forwardPin reversePin w)) = Some Stopped) /\
  (forall this calls s w,
     direction (setSpeeds this (calls ++ [s]) w) =
     Some (if 0 <? s then Forward else if s <? 0 then Reverse else Stopped)).
Proof.
  split.
  - reflexivity.
  - intros this calls s w. rewrite setSpeeds_snoc. apply setSpeed_direction.
Qed.

(** C7: the constructor configures timer 0 of unit 0, the timer both
    channels share, at 1000 Hz with active-high outputs, and leaves both
    channels at 0%. *)
Theorem MyMotor_new_configures (forwardPin reversePin : Z) (w : World) :
  let w' := snd (MyMotor_new forwardPin reversePin w) in
  (exists conf,
     timer_config w' MCPWM_UNIT_0 MCPWM_TIMER_0 = Some conf /\
     frequency conf = 1000 /\
     polarity_of (duty_mode conf) = ActiveHigh) /\
  forward_duty w' = 0 /\
  reverse_duty w' = 0.
Proof.
  cbv zeta. split; [|split; reflexivity].
  eexists. split; [reflexivity|]. split; reflexivity.
Qed.

Lemma status_line_checked (c : Z) :
  -100 <= c <= 100 -> status_line_ok c = true.
Proof. apply percent_range_check. vm_compute. reflexivity. Qed.

Lemma Direction_eqb_eq (a b : Direction) : Direction_eqb a b = true -> a = b.
Proof. destruct a, b; simpl; congruence. Qed.

(** C8: a [setSpeed] call appends exactly one line to the serial output, and
    a reader of that line gets back the direction the motor now has and the
    magnitude of the saturated speed, which is the duty now applied. *)
Theorem setSpeed_prints_one_status_line (this : MyMotor) (s : Z) (w : World) :
  let w' := setSpeed this s w in
  let line := status_line (saturate s) in
  serial w' = (serial w ++ line ++ CRLF)%string /\
  no_line_break line = true /\
  read_status line = Some (direction_of_sign s, Z.abs (saturate s)) /\
  direction w' = Some (direction_of_sign s) /\
  forward_duty w' + reverse_duty w' = Z.abs (saturate s).
Proof.
  cbv zeta.
  pose proof (status_line_checked (saturate s) (saturate_range s)) as Hok.
  unfold status_line_ok in Hok.
  apply andb_true_iff in Hok. destruct Hok as [Hnl Hread].
  destruct (read_status (status_line (saturate s))) as [[d m]|];
    [|discriminate].
  apply andb_true_iff in Hread. destruct Hread as [Hd Hm].
  apply Direction_eqb_eq in Hd. apply Z.eqb_eq in Hm.
  rewrite direction_of_sign_saturate in Hd. subst d m.
  rewrite setSpeed_serial, setSpeed_direction,
    setSpeed_forward_duty, setSpeed_reverse_duty.
  repeat split; [assumption | lia].
Qed.

(** ** The demonstration loop *)

Lemma for_loop_iterations (fuel : nat) (cond : Z -> bool) (step : Z -> Z)
    (body : Z -> World -> World) (i : Z) (w : World) :
  for_loop fuel cond step body i w =
  option_map (fun l => fold_left (fun w s => body s w) l w)
    (iterations fuel cond step i).
Proof.
  revert i w. induction fuel as [|fuel IH]; intros i w; simpl.
  - reflexivity.
  - destruct (cond i); [|reflexivity].
    rewrite IH. now destruct (iterations fuel cond step (step i)).
Qed.

Lemma iterations_more (n m : nat) (cond : Z -> bool) (step : Z -> Z)
    (i : Z) (l : list Z) :
  (n <= m)%nat ->
  iterations n cond step i = Some l -> iterations m cond step i = Some l.
Proof.
  revert m i l. induction n as [|n IH]; intros m i l Hnm; simpl.
  - discriminate.
  - destruct m as [|m]; [lia|]. simpl.
    destruct (cond i); [|trivial].
    destruct (iterations n cond step (step i)) as [l'|] eqn:Hn;
      [|discriminate].
    intros Hl. now rewrite (IH m (step i) l') by (lia || assumption).
Qed.

(** Each [for] statement of [loop] ends, after the eleven speeds of its
    ramp. *)
Lemma for_loop_ramp (fuel : nat) (cond : Z -> bool) (step : Z -> Z)
    (i : Z) (speeds : list Z) (w : World) :
  (12 <= fuel)%nat ->
  iterations 12 cond step i = Some speeds ->
  for_loop fuel cond step (fun speed => setSpeed motor speed ;; delay 500) i w
  = Some (ramp speeds w).
Proof.
  intros Hfuel Hit. rewrite for_loop_iterations.
  now rewrite (iterations_more 12 fuel cond step i speeds Hfuel Hit).
Qed.

Lemma delay_duty_writes (ms : Z) (w : World) :
  duty_writes (delay ms w) = duty_writes w.
Proof. reflexivity. Qed.

Lemma ramp_duty_writes (speeds : list Z) (w : World) :
  duty_writes (ramp speeds w) =
  duty_writes w ++
    flat_map (fun s => [write MCPWM_OPR_A (Z.max (saturate s) 0);
                        write MCPWM_OPR_B (Z.max (- saturate s) 0)]) speeds.
Proof.
  revert w. induction speeds as [|s speeds IH]; intros w.
  - simpl. now rewrite app_nil_r.
  - unfold ramp in *. simpl fold_left. rewrite IH.
    rewrite delay_duty_writes, setSpeed_duty_writes, <- app_assoc.
    reflexivity.
Qed.

(** C5: one pass of [loop] ends, having called [setSpeed] on 0, 10, ..., 100,
    then on 100, 90, ..., 0, then on 0, -10, ..., -100, then on
    -100, -90, ..., 0.  Its duty-cycle writes are, in order: the forward
    channel at 0, 10, ..., 100 and then at 100, 90, ..., 0, each with the
    reverse channel written 0; then the reverse channel at 0, 10, ..., 100
    and at 100, 90, ..., 0, each with the forward channel written 0. *)
Theorem loop_demo_sequence (fuel : nat) (w : World) :
  (12 <= fuel)%nat ->
  exists w' new,
    loop fuel w = Some w' /\
    w' = delay 2000 (ramp (map Z.opp down)
           (delay 2000 (ramp (map Z.opp up)
             (delay 2000 (ramp down
               (delay 2000 (ramp up w))))))) /\
    duty_writes w' = duty_writes w ++ new /\
    new = flat_map forward_at up ++ flat_map forward_at down ++
          flat_map reverse_at up ++ flat_map reverse_at down /\
    duties_on MCPWM_OPR_A new = up ++ down ++ repeat 0 22 /\
    duties_on MCPWM_OPR_B new = repeat 0 22 ++ up ++ down.
Proof.
  intros Hfuel. eexists. eexists.
  split.
  { unfold loop.
    rewrite (for_loop_ramp fuel _ _ 0 up) by (assumption || reflexivity).
    rewrite (for_loop_ramp fuel _ _ 100 down) by (assumption || reflexivity).
    rewrite (for_loop_ramp fuel _ _ 0 (map Z.opp up))
      by (assumption || reflexivity).
    rewrite (for_loop_ramp fuel _ _ (-100) (map Z.opp down))
      by (assumption || reflexivity).
    reflexivity. }
  split; [reflexivity|].
  split.
  { repeat rewrite ?delay_duty_writes, ?ramp_duty_writes.
    rewrite <- !app_assoc. reflexivity. }
  split; [|split]; vm_compute; reflexivity.
Qed.

Lemma loop_demo_sequence_witness :
  (12 <= 12)%nat /\
  exists w' new,
    loop 12 (snd boot) = Some w' /\
    w' = delay 2000 (ramp (map Z.opp down)
           (delay 2000 (ramp (map Z.opp up)
             (delay 2000 (ramp down
               (delay 2000 (ramp up (snd boot)))))))) /\
    duty_writes w' = duty_writes (snd boot) ++ new /\
    new = flat_map forward_at up ++ flat_map forward_at down ++
          flat_map reverse_at up ++ flat_map reverse_at down /\
    duties_on MCPWM_OPR_A new = up ++ down ++ repeat 0 22 /\
    duties_on MCPWM_OPR_B new = repeat 0 22 ++ up ++ down.
Proof.
  split; [lia | apply (loop_demo_sequence 12 (snd boot)); lia].
Defined.

(** ** Further properties of [setSpeed] and of the constructor *)

Lemma saturate_opp (s : Z) : saturate (- s) = - saturate s.
Proof. unfold saturate. lia. Qed.

Lemma saturate_monotone (s1 s2 : Z) : s1 <= s2 -> saturate s1 <= saturate s2.
Proof. unfold saturate. lia. Qed.

Lemma setSpeed_gpio (this : MyMotor) (s : Z) (w : World) :
  gpio (setSpeed this s w) = gpio w.
Proof. by_branch this s w; reflexivity. Qed.

Lemma setSpeed_timer_config (this : MyMotor) (s : Z) (w : World) :
  timer_config (setSpeed this s w) = timer_config w.
Proof. by_branch this s w; reflexivity. Qed.

Lemma setSpeed_millis (this : MyMotor) (s : Z) (w : World) :
  millis (setSpeed this s w) = millis w.
Proof. by_branch this s w; reflexivity. Qed.

Lemma setSpeed_baud (this : MyMotor) (s : Z) (w : World) :
  baud (setSpeed this s w) = baud w.
Proof. by_branch this s w; reflexivity. Qed.

Lemma setSpeed_duty (this : MyMotor) (s : Z) (w : World)
    (u : mcpwm_unit_t) (t : mcpwm_timer_t) (o : mcpwm_operator_t) :
  duty (setSpeed this s w) u t o =
  if unit_eqb MCPWM_UNIT_0 u && timer_eqb MCPWM_TIMER_0 t then
    match o with
    | MCPWM_OPR_A => Z.max (saturate s) 0
    | MCPWM_OPR_B => Z.max (- saturate s) 0
    end
  else duty w u t o.
Proof.
  by_branch this s w; destruct u, t, o; cbn; reflexivity || lia.
Qed.

(** X1: a [setSpeed] call touches nothing but the two operators of unit 0,
    timer 0, the write log and the serial output: pin routing, timer
    configurations, baud rate and clock stay as they were, and so does the
    duty of every operator of the other timers and of unit 1. *)
Theorem setSpeed_frame (this : MyMotor) (s : Z) (w : World) :
  let w' := setSpeed this s w in
  gpio w' = gpio w /\
  timer_config w' = timer_config w /\
  baud w' = baud w /\
  millis w' = millis w /\
  forall u t o,
    duty w' u t o =
    if unit_eqb MCPWM_UNIT_0 u && timer_eqb MCPWM_TIMER_0 t
    then (match o with
          | MCPWM_OPR_A => forward_duty w'
          | MCPWM_OPR_B => reverse_duty w'
          end)
    else duty w u t o.
Proof.
  cbv zeta.
  rewrite setSpeed_gpio, setSpeed_timer_config, setSpeed_baud, setSpeed_millis.
  repeat split.
  intros u t o. rewrite setSpeed_forward_duty, setSpeed_reverse_duty.
  apply setSpeed_duty.
Qed.

Lemma setSpeeds_gpio (this : MyMotor) (calls : list Z) (w : World) :
  gpio (setSpeeds this calls w) = gpio w.
Proof.
  induction calls as [|s calls IH] using rev_ind; [reflexivity|].
  now rewrite setSpeeds_snoc, setSpeed_gpio.
Qed.

Lemma setSpeeds_timer_config (this : MyMotor) (calls : list Z) (w : World) :
  timer_config (setSpeeds this calls w) = timer_config w.
Proof.
  induction calls as [|s calls IH] using rev_ind; [reflexivity|].
  now rewrite setSpeeds_snoc, setSpeed_timer_config.
Qed.

(** X2: what the constructor sets up outlasts every sequence of [setSpeed]
    calls.  For two different pins (one pin carries one signal), MCPWM0A is
    still routed to the forward pin and MCPWM0B to the reverse pin, the
    object holds the two pins,
    and timer 0 of unit 0 still has the constructor's configuration:
    1000 Hz, up-counting, active high. *)
Theorem configuration_persists
    (fpin rpin : Z) (w : World) (calls : list Z) :
  fpin <> rpin ->
  let (this, w0) := MyMotor_new fpin rpin w in
  let w' := setSpeeds this calls w0 in
  forwardPin this = fpin /\
  reversePin this = rpin /\
  gpio w' MCPWM_UNIT_0 MCPWM0A = Some fpin /\
  gpio w' MCPWM_UNIT_0 MCPWM0B = Some rpin /\
  exists conf,
    timer_config w' MCPWM_UNIT_0 MCPWM_TIMER_0 = Some conf /\
    frequency conf = 1000 /\
    counter_mode conf = MCPWM_UP_COUNTER /\
    polarity_of (duty_mode conf) = ActiveHigh.
Proof.
  intros _. unfold MyMotor_new. cbv zeta.
  rewrite setSpeeds_gpio, setSpeeds_timer_config.
  repeat split. eexists. repeat split.
Qed.

Lemma configuration_persists_witness :
  4 <> 15 /\
  let w' := setSpeeds motor [30; -150; 0; 70] (snd boot) in
  forwardPin motor = 4 /\
  reversePin motor = 15 /\
  gpio w' MCPWM_UNIT_0 MCPWM0A = Some 4 /\
  gpio w' MCPWM_UNIT_0 MCPWM0B = Some 15 /\
  exists conf,
    timer_config w' MCPWM_UNIT_0 MCPWM_TIMER_0 = Some conf /\
    frequency conf = 1000 /\
    counter_mode conf = MCPWM_UP_COUNTER /\
    polarity_of (duty_mode conf) = ActiveHigh.
Proof.
  split; [lia|].
  apply (configuration_persists 4 15 power_on [30; -150; 0; 70]). lia.
Defined.

Lemma neg_small (s : Z) :
  Int32.in_range s -> s <> Int32.min_int -> Int32.neg s = - s.
Proof.
  intros Hs Hmin. unfold Int32.neg. apply wrap_int_small.
  unfold Int32.in_range, Int32.min_int, Int32.max_int in *. lia.
Qed.

(** X3: reverse mirrors forward.  For every [int] [s] other than the least
    one, [setSpeed (-s)] leaves on the reverse channel the duty [setSpeed s]
    leaves on the forward channel, and the other way round.  The least
    [int] is its own opposite, so there the two calls are one and the same
    and both leave the reverse channel at 100%. *)
Theorem setSpeed_mirror (this : MyMotor) (s : Z) (w1 w2 : World) :
  Int32.in_range s ->
  (s <> Int32.min_int ->
   forward_duty (setSpeed this (Int32.neg s) w1)
     = reverse_duty (setSpeed this s w2) /\
   reverse_duty (setSpeed this (Int32.neg s) w1)
     = forward_duty (setSpeed this s w2)) /\
  (s = Int32.min_int ->
   Int32.neg s = s /\
   channels (setSpeed this (Int32.neg s) w1) = (0, 100) /\
   channels (setSpeed this s w2) = (0, 100)).
Proof.
  intros Hs. split.
  - intros Hmin. rewrite (neg_small s Hs Hmin).
    rewrite !setSpeed_forward_duty, !setSpeed_reverse_duty, saturate_opp.
    split; f_equal; lia.
  - intros ->. rewrite !setSpeed_channels. repeat split.
Qed.

Lemma setSpeed_mirror_witness :
  (Int32.in_range 37 /\ 37 <> Int32.min_int /\
   forward_duty (setSpeed motor (Int32.neg 37) (snd boot))
     = reverse_duty (setSpeed motor 37 power_on) /\
   reverse_duty (setSpeed motor (Int32.neg 37) (snd boot))
     = forward_duty (setSpeed motor 37 power_on)) /\
  (Int32.in_range Int32.min_int /\ Int32.min_int = Int32.min_int /\
   Int32.neg Int32.min_int = Int32.min_int /\
   channels (setSpeed motor (Int32.neg Int32.min_int) (snd boot)) = (0, 100) /\
   channels (setSpeed motor Int32.min_int power_on) = (0, 100)).
Proof.
  assert (H37 : Int32.in_range 37)
    by (unfold Int32.in_range, Int32.min_int, Int32.max_int; lia).
  assert (Hmin : Int32.in_range Int32.min_int)
    by (unfold Int32.in_range, Int32.min_int, Int32.max_int; lia).
  split.
  - split; [exact H37|].
    split; [unfold Int32.min_int; lia|].
    apply (proj1 (setSpeed_mirror motor 37 (snd boot) power_on H37)).
    unfold Int32.min_int; lia.
  - split; [exact Hmin|]. split; [reflexivity|].
    apply (proj2 (setSpeed_mirror motor Int32.min_int (snd boot) power_on Hmin)).
    reflexivity.
Defined.

(** X4: a larger speed never gives less forward duty nor more reverse duty,
    over all integers, saturated ones included. *)
Theorem setSpeed_monotone (this : MyMotor) (s1 s2 : Z) (w1 w2 : World) :
  s1 <= s2 ->
  forward_duty (setSpeed this s1 w1) <= forward_duty (setSpeed this s2 w2) /\
  reverse_duty (setSpeed this s2 w2) <= reverse_duty (setSpeed this s1 w1).
Proof.
  intros Hle. apply saturate_monotone in Hle.
  rewrite !setSpeed_forward_duty, !setSpeed_reverse_duty. lia.
Qed.

Lemma setSpeed_monotone_witness :
  -250 <= 40 /\
  forward_duty (setSpeed motor (-250) (snd boot))
    <= forward_duty (setSpeed motor 40 power_on) /\
  reverse_duty (setSpeed motor 40 power_on)
    <= reverse_duty (setSpeed motor (-250) (snd boot)).
Proof.
  split; [lia | apply (setSpeed_monotone motor (-250) 40); lia].
Defined.

Lemma between_exclusive (s : Z) (w : World) :
  exclusive (mcpwm_set_duty MCPWM_UNIT_0 MCPWM_TIMER_0 MCPWM_OPR_A
               (Z.max (saturate s) 0) w)
  <-> s <= 0 \/ reverse_duty w = 0.
Proof.
  unfold exclusive, forward_duty, reverse_duty. simpl duty.
  unfold saturate. lia.
Qed.

(** X5: the two writes of a call, one at a time.  The forward channel is
    written first, the reverse channel second.  After the first write the
    reverse channel still holds what it held before the call, so both
    channels are driven at that point exactly when a forward speed is set
    while the reverse channel is on; a call with [s <= 0], or one made with
    the reverse channel off, keeps at most one channel driven throughout. *)
Theorem setSpeed_between_writes (this : MyMotor) (s : Z) (w : World) :
  let a := Z.max (saturate s) 0 in
  let b := Z.max (- saturate s) 0 in
  let between := mcpwm_set_duty MCPWM_UNIT_0 MCPWM_TIMER_0 MCPWM_OPR_A a w in
  duty_writes (setSpeed this s w) =
    duty_writes between ++ [write MCPWM_OPR_B b] /\
  (forall u t o,
     duty (setSpeed this s w) u t o =
     duty (mcpwm_set_duty MCPWM_UNIT_0 MCPWM_TIMER_0 MCPWM_OPR_B b between)
       u t o) /\
  channels between = (a, reverse_duty w) /\
  (exclusive between <-> s <= 0 \/ reverse_duty w = 0).
Proof.
  cbv zeta. repeat split.
  - rewrite setSpeed_duty_writes. simpl duty_writes.
    rewrite <- app_assoc. reflexivity.
  - intros u t o. rewrite setSpeed_duty. now destruct u, t, o.
  - unfold exclusive, forward_duty, reverse_duty. simpl duty.
    unfold saturate. lia.
  - unfold exclusive, forward_duty, reverse_duty. simpl duty.
    unfold saturate. lia.
Qed.

(** X12: over a sequence of calls, the two channels are driven together,
    between the two writes of a call, exactly when a forward speed comes
    right after a reverse speed.  Every other succession of speeds keeps
    at most one channel driven after each write. *)
Theorem overlap_only_reverse_to_forward
    (this : MyMotor) (calls : list Z) (s0 s : Z) (w : World) :
  let before := setSpeeds this (calls ++ [s0]) w in
  let between :=
    mcpwm_set_duty MCPWM_UNIT_0 MCPWM_TIMER_0 MCPWM_OPR_A
      (Z.max (saturate s) 0) before in
  (exclusive between <-> s <= 0 \/ 0 <= s0) /\
  exclusive before /\
  exclusive (setSpeed this s before).
Proof.
  cbv zeta. rewrite between_exclusive, setSpeeds_snoc.
  unfold exclusive.
  rewrite !setSpeed_forward_duty, !setSpeed_reverse_duty.
  unfold saturate. lia.
Qed.

Lemma channels_saturate (c1 c2 : Z) :
  (Z.max c1 0, Z.max (- c1) 0) = (Z.max c2 0, Z.max (- c2) 0) <-> c1 = c2.
Proof.
  split; [|now intros ->].
  intros H. injection H as H1 H2. lia.
Qed.

Lemma status_line_reads (c : Z) :
  -100 <= c <= 100 ->
  read_status (status_line c) = Some (direction_of_sign c, Z.abs c).
Proof.
  intros Hc. pose proof (status_line_checked c Hc) as Hok.
  unfold status_line_ok in Hok.
  apply andb_true_iff in Hok. destruct Hok as [_ Hread].
  destruct (read_status (status_line c)) as [[d m]|]; [|discriminate].
  apply andb_true_iff in Hread. destruct Hread as [Hd Hm].
  apply Direction_eqb_eq in Hd. apply Z.eqb_eq in Hm. now subst.
Qed.

Lemma status_line_injective (c1 c2 : Z) :
  -100 <= c1 <= 100 -> -100 <= c2 <= 100 ->
  status_line c1 = status_line c2 -> c1 = c2.
Proof.
  intros H1 H2 Heq.
  pose proof (status_line_reads c1 H1) as R1.
  pose proof (status_line_reads c2 H2) as R2.
  rewrite Heq, R2 in R1. injection R1 as Hd Hm.
  unfold direction_of_sign in Hd.
  destruct (Z.ltb_spec 0 c1), (Z.ltb_spec c1 0),
           (Z.ltb_spec 0 c2), (Z.ltb_spec c2 0);
    try discriminate; lia.
Qed.

Lemma string_app_length (a b : string) :
  String.length (a ++ b) = (String.length a + String.length b)%nat.
Proof. induction a as [|x a IH]; simpl; [reflexivity | now rewrite IH]. Qed.

Lemma string_app_inv_head (p a b : string) :
  (p ++ a = p ++ b)%string -> a = b.
Proof.
  induction p as [|x p IH]; simpl; [trivial|].
  intros H. injection H as H. now apply IH.
Qed.

Lemma string_app_inv_tail (a b t : string) :
  (a ++ t = b ++ t)%string -> a = b.
Proof.
  revert b. induction a as [|x a IH]; intros [|y b] H.
  - reflexivity.
  - apply (f_equal String.length) in H. simpl in H.
    rewrite string_app_length in H. lia.
  - apply (f_equal String.length) in H. simpl in H.
    rewrite string_app_length in H. lia.
  - simpl in H. injection H as Hx H. subst y. f_equal. now apply IH.
Qed.

(** X6: the status line tells the state of the channels.  Two calls, with
    any arguments and from any worlds, print the same line exactly when they
    leave the same pair of duties. *)
Theorem status_line_identifies_channels
    (this : MyMotor) (s1 s2 : Z) (w1 w2 : World) :
  (exists line,
     serial (setSpeed this s1 w1) = (serial w1 ++ line ++ CRLF)%string /\
     serial (setSpeed this s2 w2) = (serial w2 ++ line ++ CRLF)%string)
  <-> channels (setSpeed this s1 w1) = channels (setSpeed this s2 w2).
Proof.
  rewrite !setSpeed_channels, !setSpeed_serial, channels_saturate.
  split.
  - intros [line [E1 E2]].
    apply string_app_inv_head, string_app_inv_tail in E1.
    apply string_app_inv_head, string_app_inv_tail in E2.
    apply status_line_injective; try apply saturate_range.
    congruence.
  - intros ->. now eexists.
Qed.

(** ** Further properties of [loop] *)

Lemma loop_demo_pass (fuel : nat) (w : World) :
  (12 <= fuel)%nat -> loop fuel w = Some (demo_pass w).
Proof.
  intros Hfuel. unfold loop.
  rewrite (for_loop_ramp fuel _ _ 0 up) by (assumption || reflexivity).
  rewrite (for_loop_ramp fuel _ _ 100 down) by (assumption || reflexivity).
  rewrite (for_loop_ramp fuel _ _ 0 (map Z.opp up))
    by (assumption || reflexivity).
  rewrite (for_loop_ramp fuel _ _ (-100) (map Z.opp down))
    by (assumption || reflexivity).
  reflexivity.
Qed.

Lemma ramp_snoc (speeds : list Z) (s : Z) (w : World) :
  ramp (speeds ++ [s]) w = delay 500 (setSpeed motor s (ramp speeds w)).
Proof. unfold ramp. now rewrite fold_left_app. Qed.

Lemma delay_millis (ms : Z) (w : World) : millis (delay ms w) = millis w + ms.
Proof. reflexivity. Qed.

Lemma delay_serial (ms : Z) (w : World) : serial (delay ms w) = serial w.
Proof. reflexivity. Qed.

Lemma delay_channels (ms : Z) (w : World) : channels (delay ms w) = channels w.
Proof. reflexivity. Qed.

Lemma delay_gpio (ms : Z) (w : World) : gpio (delay ms w) = gpio w.
Proof. reflexivity. Qed.

Lemma delay_timer_config (ms : Z) (w : World) :
  timer_config (delay ms w) = timer_config w.
Proof. reflexivity. Qed.

Lemma ramp_millis (speeds : list Z) (w : World) :
  millis (ramp speeds w) = millis w + 500 * Z.of_nat (List.length speeds).
Proof.
  induction speeds as [|s speeds IH] using rev_ind.
  - simpl. lia.
  - rewrite ramp_snoc, delay_millis, setSpeed_millis, IH, length_app.
    simpl List.length. lia.
Qed.

Lemma ramp_gpio (speeds : list Z) (w : World) : gpio (ramp speeds w) = gpio w.
Proof.
  induction speeds as [|s speeds IH] using rev_ind; [reflexivity|].
  now rewrite ramp_snoc, delay_gpio, setSpeed_gpio.
Qed.

Lemma ramp_timer_config (speeds : list Z) (w : World) :
  timer_config (ramp speeds w) = timer_config w.
Proof.
  induction speeds as [|s speeds IH] using rev_ind; [reflexivity|].
  now rewrite ramp_snoc, delay_timer_config, setSpeed_timer_config.
Qed.

Lemma string_app_nil_r (a : string) : (a ++ "")%string = a.
Proof. induction a as [|x a IH]; simpl; [reflexivity | now rewrite IH]. Qed.

Lemma lines_app (l1 l2 : list string) :
  lines (l1 ++ l2) = (lines l1 ++ lines l2)%string.
Proof.
  induction l1 as [|x l1 IH]; simpl; [reflexivity|].
  now rewrite IH, !string_app_assoc.
Qed.

Lemma ramp_serial (speeds : list Z) (w : World) :
  serial (ramp speeds w) =
  (serial w ++ lines (map (fun s => status_line (saturate s)) speeds))%string.
Proof.
  induction speeds as [|s speeds IH] using rev_ind.
  - simpl. now rewrite string_app_nil_r.
  - rewrite ramp_snoc, delay_serial, setSpeed_serial, IH, map_app, lines_app.
    simpl. now rewrite !string_app_assoc.
Qed.

Lemma demo_pass_millis (w : World) : millis (demo_pass w) = millis w + 30000.
Proof.
  unfold demo_pass.
  repeat rewrite ?delay_millis, ?ramp_millis. simpl List.length. lia.
Qed.

Lemma demo_pass_channels (w : World) : channels (demo_pass w) = (0, 0).
Proof.
  unfold demo_pass. rewrite delay_channels.
  change (map Z.opp down) with (map Z.opp (removelast down) ++ [0]).
  now rewrite ramp_snoc, delay_channels, setSpeed_channels.
Qed.

Lemma demo_pass_gpio (w : World) : gpio (demo_pass w) = gpio w.
Proof. unfold demo_pass. now repeat rewrite ?delay_gpio, ?ramp_gpio. Qed.

Lemma demo_pass_timer_config (w : World) :
  timer_config (demo_pass w) = timer_config w.
Proof.
  unfold demo_pass. now repeat rewrite ?delay_timer_config, ?ramp_timer_config.
Qed.

Lemma demo_pass_duty_writes (w : World) :
  duty_writes (demo_pass w) = duty_writes w ++ demo_writes.
Proof.
  unfold demo_pass. repeat rewrite ?delay_duty_writes, ?ramp_duty_writes.
  rewrite <- !app_assoc. reflexivity.
Qed.

Lemma demo_pass_serial (w : World) :
  serial (demo_pass w) =
  (serial w ++ lines (map status_line demo_speeds))%string.
Proof.
  unfold demo_pass. repeat rewrite ?delay_serial, ?ramp_serial.
  unfold demo_speeds. rewrite !map_app, !lines_app, !string_app_assoc.
  reflexivity.
Qed.

(** X7: from any world, one pass of [loop] ends after 30000 ms of [delay]
    (44 steps of 500 ms and four holds of 2000 ms), leaves both channels at
    0%, the motor stopped, and the pin routing and timer configurations as
    they were. *)
Theorem loop_pass_duration (fuel : nat) (w : World) :
  (12 <= fuel)%nat ->
  exists w',
    loop fuel w = Some w' /\
    millis w' = millis w + (44 * 500 + 4 * 2000) /\
    channels w' = (0, 0) /\
    direction w' = Some Stopped /\
    gpio w' = gpio w /\
    timer_config w' = timer_config w.
Proof.
  intros Hfuel. exists (demo_pass w).
  split; [now apply loop_demo_pass|].
  pose proof (demo_pass_channels w) as Hc.
  split; [rewrite demo_pass_millis; lia|].
  split; [exact Hc|].
  split; [|split; [apply demo_pass_gpio | apply demo_pass_timer_config]].
  unfold direction.
  replace (forward_duty (demo_pass w)) with 0
    by exact (eq_sym (f_equal fst Hc)).
  replace (reverse_duty (demo_pass w)) with 0
    by exact (eq_sym (f_equal snd Hc)).
  reflexivity.
Qed.

Lemma loop_pass_duration_witness :
  (12 <= 12)%nat /\
  exists w',
    loop 12 (setSpeed motor (-80) (snd boot)) = Some w' /\
    millis w' = millis (setSpeed motor (-80) (snd boot))
                + (44 * 500 + 4 * 2000) /\
    channels w' = (0, 0) /\
    direction w' = Some Stopped /\
    gpio w' = gpio (setSpeed motor (-80) (snd boot)) /\
    timer_config w' = timer_config (setSpeed motor (-80) (snd boot)).
Proof.
  split; [lia |].
  apply (loop_pass_duration 12 (setSpeed motor (-80) (snd boot))). lia.
Defined.

(** X8: one pass of [loop] prints 44 lines, one per [setSpeed] call, after
    whatever was printed before.  Each ramp from zero opens with
    "Motor Stopped" and each ramp down closes with it; in between come the
    forward speeds and then the reverse speeds, printed with their minus
    sign. *)
Theorem loop_pass_output (fuel : nat) (w : World) :
  (12 <= fuel)%nat ->
  exists w',
    loop fuel w = Some w' /\
    serial w' = (serial w ++ lines (map status_line demo_speeds))%string /\
    List.length demo_speeds = 44%nat /\
    map status_line demo_speeds =
      [ "Motor Stopped"; "Forward Speed: 10%"; "Forward Speed: 20%";
        "Forward Speed: 30%"; "Forward Speed: 40%"; "Forward Speed: 50%";
        "Forward Speed: 60%"; "Forward Speed: 70%"; "Forward Speed: 80%";
        "Forward Speed: 90%"; "Forward Speed: 100%";
        "Forward Speed: 100%"; "Forward Speed: 90%"; "Forward Speed: 80%";
        "Forward Speed: 70%"; "Forward Speed: 60%"; "Forward Speed: 50%";
        "Forward Speed: 40%"; "Forward Speed: 30%"; "Forward Speed: 20%";
        "Forward Speed: 10%"; "Motor Stopped";
        "Motor Stopped"; "Reverse Speed: -10%"; "Reverse Speed: -20%";
        "Reverse Speed: -30%"; "Reverse Speed: -40%"; "Reverse Speed: -50%";
        "Reverse Speed: -60%"; "Reverse Speed: -70%"; "Reverse Speed: -80%";
        "Reverse Speed: -90%"; "Reverse Speed: -100%";
        "Reverse Speed: -100%"; "Reverse Speed: -90%"; "Reverse Speed: -80%";
        "Reverse Speed: -70%"; "Reverse Speed: -60%"; "Reverse Speed: -50%";
        "Reverse Speed: -40%"; "Reverse Speed: -30%"; "Reverse Speed: -20%";
        "Reverse Speed: -10%"; "Motor Stopped" ]%string.
Proof.
  intros Hfuel. exists (demo_pass w).
  split; [now apply loop_demo_pass|].
  split; [apply demo_pass_serial|].
  split; reflexivity.
Qed.

Lemma loop_pass_output_witness :
  (12 <= 13)%nat /\
  exists w',
    loop 13 (setup (snd boot)) = Some w' /\
    serial w' = (serial (setup (snd boot))
                 ++ lines (map status_line demo_speeds))%string.
Proof.
  split; [lia |].
  destruct (loop_pass_output 13 (setup (snd boot))) as [w' [H1 [H2 _]]];
    [lia |].
  exists w'. split; assumption.
Defined.

(** *** The channels during a pass, write by write *)

Lemma replay_app (l1 l2 : list duty_write) (w : World) :
  replay (l1 ++ l2) w = replay l2 (replay l1 w).
Proof. unfold replay. now rewrite fold_left_app. Qed.

Lemma same_duty_trans (w1 w2 w3 : World) :
  same_duty w1 w2 -> same_duty w2 w3 -> same_duty w1 w3.
Proof. intros H12 H23 u t o. now rewrite H12. Qed.

Lemma same_duty_refl (w : World) : same_duty w w.
Proof. intros u t o. reflexivity. Qed.

Lemma delay_same_duty (ms : Z) (w : World) : same_duty (delay ms w) w.
Proof. intros u t o. reflexivity. Qed.

Lemma set_duty_same_duty (u : mcpwm_unit_t) (t : mcpwm_timer_t)
    (o : mcpwm_operator_t) (d : Z) (w1 w2 : World) :
  same_duty w1 w2 ->
  same_duty (mcpwm_set_duty u t o d w1) (mcpwm_set_duty u t o d w2).
Proof. intros H u' t' o'. simpl. now rewrite H. Qed.

Lemma replay_same_duty (l : list duty_write) (w1 w2 : World) :
  same_duty w1 w2 -> same_duty (replay l w1) (replay l w2).
Proof.
  revert w1 w2. induction l as [|d l IH]; intros w1 w2 H; [exact H|].
  apply IH. now apply set_duty_same_duty.
Qed.

Lemma setSpeed_replay (this : MyMotor) (s : Z) (w : World) :
  same_duty (setSpeed this s w)
    (replay [write MCPWM_OPR_A (Z.max (saturate s) 0);
             write MCPWM_OPR_B (Z.max (- saturate s) 0)] w).
Proof. intros u t o. rewrite setSpeed_duty. now destruct u, t, o. Qed.

Lemma ramp_replay (speeds : list Z) (w : World) :
  same_duty (ramp speeds w)
    (replay
       (flat_map (fun s => [write MCPWM_OPR_A (Z.max (saturate s) 0);
                            write MCPWM_OPR_B (Z.max (- saturate s) 0)])
          speeds) w).
Proof.
  induction speeds as [|s speeds IH] using rev_ind.
  - apply same_duty_refl.
  - rewrite ramp_snoc, flat_map_app, replay_app.
    apply same_duty_trans with (1 := delay_same_duty _ _).
    apply same_duty_trans with (1 := setSpeed_replay _ _ _).
    now apply replay_same_duty.
Qed.

Lemma ramp_replay_onto (speeds : list Z) (ws : list duty_write)
    (w w' : World) :
  ws = flat_map (fun s => [write MCPWM_OPR_A (Z.max (saturate s) 0);
                           write MCPWM_OPR_B (Z.max (- saturate s) 0)])
         speeds ->
  same_duty w w' ->
  same_duty (ramp speeds w) (replay ws w').
Proof.
  intros -> H.
  apply same_duty_trans with (1 := ramp_replay speeds w).
  now apply replay_same_duty.
Qed.

Lemma delay_same_duty_onto (ms : Z) (w w' : World) :
  same_duty w w' -> same_duty (delay ms w) w'.
Proof. apply same_duty_trans, delay_same_duty. Qed.

Lemma demo_pass_replay (w : World) :
  same_duty (demo_pass w) (replay demo_writes w).
Proof.
  unfold demo_pass, demo_writes. rewrite !replay_app.
  apply delay_same_duty_onto.
  apply (ramp_replay_onto (map Z.opp down) (flat_map reverse_at down));
    [reflexivity|].
  apply delay_same_duty_onto.
  apply (ramp_replay_onto (map Z.opp up) (flat_map reverse_at up));
    [reflexivity|].
  apply delay_same_duty_onto.
  apply (ramp_replay_onto down (flat_map forward_at down)); [reflexivity|].
  apply delay_same_duty_onto.
  apply (ramp_replay_onto up (flat_map forward_at up)); [reflexivity|].
  apply same_duty_refl.
Qed.

Lemma channels_set_duty (d : duty_write) (w : World) :
  channels (mcpwm_set_duty (dw_unit d) (dw_timer d) (dw_operator d)
              (dw_duty d) w)
  = apply_write (channels w) d.
Proof. destruct d as [u t o z]. now destruct u, t, o. Qed.

Lemma channels_replay_firstn (l : list duty_write) (w : World) (k : nat) :
  (k < List.length l)%nat ->
  channels (replay (firstn (S k) l) w)
  = nth k (channel_trace (channels w) l) (0, 0).
Proof.
  revert w k. induction l as [|d l IH]; intros w k Hk; simpl in Hk; [lia|].
  destruct k as [|k].
  - simpl. apply channels_set_duty.
  - change (replay (firstn (S (S k)) (d :: l)) w)
      with (replay (firstn (S k) l)
              (mcpwm_set_duty (dw_unit d) (dw_timer d) (dw_operator d)
                 (dw_duty d) w)).
    rewrite IH by lia. simpl. now rewrite channels_set_duty.
Qed.

Lemma channel_trace_app (p : Z * Z) (l1 l2 : list duty_write) :
  channel_trace p (l1 ++ l2) =
  channel_trace p l1 ++ channel_trace (fold_left apply_write l1 p) l2.
Proof.
  revert p. induction l1 as [|d l1 IH]; intros p; simpl; [reflexivity|].
  now rewrite IH.
Qed.

Lemma demo_writes_trace (p : Z * Z) :
  Forall exclusive_pair (channel_trace p demo_writes) /\
  fold_left apply_write demo_writes p = (0, 0).
Proof.
  destruct p as [f r]. split; [|reflexivity].
  change (channel_trace (f, r) demo_writes)
    with ((0, r) :: (0, 0) :: channel_trace (0, 0) (skipn 2 demo_writes)).
  constructor; [left; reflexivity|].
  constructor; [left; reflexivity|].
  apply Forall_forall. intros q Hq.
  assert (Hb : forallb (fun q => (fst q =? 0) || (snd q =? 0))
                 (channel_trace (0, 0) (skipn 2 demo_writes)) = true)
    by (vm_compute; reflexivity).
  rewrite forallb_forall in Hb. specialize (Hb q Hq).
  apply orb_true_iff in Hb. unfold exclusive_pair.
  destruct Hb as [Hb|Hb]; apply Z.eqb_eq in Hb; auto.
Qed.

Lemma exclusive_channels (w : World) :
  exclusive w <-> exclusive_pair (channels w).
Proof. reflexivity. Qed.

Lemma channel_trace_length (p : Z * Z) (l : list duty_write) :
  List.length (channel_trace p l) = List.length l.
Proof.
  revert p. induction l as [|d l IH]; intros p; simpl; [reflexivity|].
  now rewrite IH.
Qed.

Lemma replay_prefix_exclusive_pos (l : list duty_write) (w : World) :
  Forall exclusive_pair (channel_trace (channels w) l) ->
  forall k, (1 <= k <= List.length l)%nat ->
  exclusive (replay (firstn k l) w).
Proof.
  intros Hall k Hk. destruct k as [|k]; [lia|].
  apply exclusive_channels. rewrite channels_replay_firstn by lia.
  rewrite Forall_forall in Hall. apply Hall, nth_In.
  rewrite channel_trace_length. lia.
Qed.

Lemma replay_prefix_exclusive (l : list duty_write) (w : World) :
  exclusive w ->
  Forall exclusive_pair (channel_trace (channels w) l) ->
  forall k, exclusive (replay (firstn k l) w).
Proof.
  intros Hw Hall k.
  destruct k as [|k]; [exact Hw|].
  destruct l as [|d l]; [exact Hw|].
  destruct (Nat.le_gt_cases (S k) (List.length (d :: l))) as [Hle|Hgt].
  - apply replay_prefix_exclusive_pos; [assumption | lia].
  - rewrite firstn_all2 by lia.
    rewrite <- (firstn_all (d :: l)).
    apply replay_prefix_exclusive_pos; [assumption | simpl; lia].
Qed.

(** X9: the channels never overlap during a pass of [loop], whatever the
    world it starts from.  The duty-cycle writes of the pass are the 88 of
    [demo_writes], they account for the duty of every operator at its end,
    and after each one of them at most one of the two channels is
    nonzero: the ramps change direction through 0%. *)
Theorem loop_pass_never_overlaps (fuel : nat) (w : World) :
  (12 <= fuel)%nat ->
  exists w',
    loop fuel w = Some w' /\
    duty_writes w' = duty_writes w ++ demo_writes /\
    List.length demo_writes = 88%nat /\
    same_duty w' (replay demo_writes w) /\
    forall k, (1 <= k <= 88)%nat ->
      exclusive (replay (firstn k demo_writes) w).
Proof.
  intros Hfuel. exists (demo_pass w).
  split; [now apply loop_demo_pass|].
  split; [apply demo_pass_duty_writes|].
  split; [reflexivity|].
  split; [apply demo_pass_replay|].
  intros k Hk. apply replay_prefix_exclusive_pos.
  - apply demo_writes_trace.
  - change (List.length demo_writes) with 88%nat. exact Hk.
Qed.

Lemma loop_pass_never_overlaps_witness :
  (12 <= 12)%nat /\
  exists w',
    loop 12 (setSpeed motor (-60) (snd boot)) = Some w' /\
    (1 <= 1 <= 88)%nat /\
    exclusive (replay (firstn 1 demo_writes) (setSpeed motor (-60) (snd boot))).
Proof.
  split; [lia|].
  destruct (loop_pass_never_overlaps 12 (setSpeed motor (-60) (snd boot)))
    as [w' [H1 [_ [_ [_ H5]]]]]; [lia|].
  exists w'. split; [exact H1|]. split; [lia|]. apply H5. lia.
Defined.

(** ** Pass after pass *)

Lemma loops_succ (n fuel : nat) (w : World) :
  (12 <= fuel)%nat -> loops (S n) fuel w = loops n fuel (demo_pass w).
Proof.
  intros Hfuel.
  change (loops (S n) fuel w)
    with (match loop fuel w with
          | Some w' => loops n fuel w'
          | None => None
          end).
  now rewrite loop_demo_pass.
Qed.

(** [n] passes in a row, from any world. *)
Lemma loops_demo_passes (n fuel : nat) (w : World) :
  (12 <= fuel)%nat ->
  exists w',
    loops n fuel w = Some w' /\
    millis w' = millis w + 30000 * Z.of_nat n /\
    duty_writes w' = duty_writes w ++ List.concat (repeat demo_writes n) /\
    serial w' =
      (serial w ++
       lines (List.concat (repeat (map status_line demo_speeds) n)))%string /\
    gpio w' = gpio w /\
    timer_config w' = timer_config w /\
    same_duty w' (replay (List.concat (repeat demo_writes n)) w).
Proof.
  intros Hfuel. revert w. induction n as [|n IH]; intros w.
  - exists w. split; [reflexivity|].
    split; [simpl; lia|].
    split; [simpl; now rewrite app_nil_r|].
    split; [simpl; now rewrite string_app_nil_r|].
    split; [reflexivity|]. split; [reflexivity | apply same_duty_refl].
  - destruct (IH (demo_pass w)) as [w' [Hrun [Hms [Hdw [Hser [Hg [Ht Hd]]]]]]].
    exists w'. rewrite loops_succ by assumption.
    split; [exact Hrun|].
    split; [rewrite Hms, demo_pass_millis; lia|].
    split; [rewrite Hdw, demo_pass_duty_writes, <- app_assoc; reflexivity|].
    split.
    { rewrite Hser, demo_pass_serial, string_app_assoc.
      change (List.concat (repeat (map status_line demo_speeds) (S n)))
        with (map status_line demo_speeds
              ++ List.concat (repeat (map status_line demo_speeds) n)).
      change (List.concat (?a :: ?l)) with (a ++ concat l).
      now rewrite lines_app. }
    split; [now rewrite Hg, demo_pass_gpio|].
    split; [now rewrite Ht, demo_pass_timer_config|].
    change (List.concat (repeat demo_writes (S n)))
      with (demo_writes ++ List.concat (repeat demo_writes n)).
    rewrite replay_app.
    apply same_duty_trans with (1 := Hd).
    apply replay_same_duty, demo_pass_replay.
Qed.

(** X10: passes of [loop] add up.  From any world, [n] passes in a row end;
    they take [n] times 30000 ms, make the 88 writes of a pass [n] times
    over, print the 44 lines of a pass [n] times over, leave the pin
    routing and the timer configurations alone, and end with every operator
    at the duty these writes give it. *)
Theorem loops_compose (n fuel : nat) (w : World) :
  (12 <= fuel)%nat ->
  exists w',
    loops n fuel w = Some w' /\
    millis w' = millis w + 30000 * Z.of_nat n /\
    duty_writes w' = duty_writes w ++ List.concat (repeat demo_writes n) /\
    serial w' =
      (serial w ++
       lines (List.concat (repeat (map status_line demo_speeds) n)))%string /\
    gpio w' = gpio w /\
    timer_config w' = timer_config w /\
    same_duty w' (replay (List.concat (repeat demo_writes n)) w).
Proof. apply loops_demo_passes. Qed.

Lemma loops_compose_witness :
  (12 <= 20)%nat /\
  exists w',
    loops 3 20 (setup (snd boot)) = Some w' /\
    millis w' = millis (setup (snd boot)) + 30000 * Z.of_nat 3.
Proof.
  split; [lia|].
  destruct (loops_compose 3 20 (setup (snd boot))) as [w' [H1 [H2 _]]];
    [lia|].
  exists w'. split; assumption.
Defined.

Lemma repeat_demo_trace (n : nat) (p : Z * Z) :
  Forall exclusive_pair (channel_trace p (List.concat (repeat demo_writes n))).
Proof.
  revert p. induction n as [|n IH]; intros p.
  - constructor.
  - change (List.concat (repeat demo_writes (S n)))
      with (demo_writes ++ List.concat (repeat demo_writes n)).
    rewrite channel_trace_app. apply Forall_app. split.
    + apply demo_writes_trace.
    + apply IH.
Qed.

Lemma repeat_demo_duties (n : nat) :
  Forall (fun d => dw_unit d = MCPWM_UNIT_0 /\ dw_timer d = MCPWM_TIMER_0 /\
                   0 <= dw_duty d <= 100)
    (List.concat (repeat demo_writes n)).
Proof.
  induction n as [|n IH]; [constructor|].
  change (List.concat (repeat demo_writes (S n)))
    with (demo_writes ++ List.concat (repeat demo_writes n)).
  apply Forall_app. split; [|exact IH].
  unfold demo_writes. repeat constructor; simpl; lia.
Qed.

(** X11: the whole sketch, from reset through the constructor, [setup] and
    any number [n] of passes of [loop].  It prints the banner and then the
    44 lines of a pass [n] times; every duty-cycle write it makes goes to
    unit 0, timer 0, with a duty in [0, 100]; these writes account for the
    duty of every operator at the end; and after each of them, as before
    the first, at most one of the two channels is nonzero. *)
Theorem sketch_run (n fuel : nat) :
  (12 <= fuel)%nat ->
  exists w',
    sketch n fuel = Some w' /\
    serial w' =
      lines ("Starting Motor Test..."%string
             :: List.concat (repeat (map status_line demo_speeds) n)) /\
    duty_writes w' = List.concat (repeat demo_writes n) /\
    Forall (fun d => dw_unit d = MCPWM_UNIT_0 /\ dw_timer d = MCPWM_TIMER_0 /\
                     0 <= dw_duty d <= 100) (duty_writes w') /\
    same_duty w' (replay (duty_writes w') (setup (snd boot))) /\
    forall k,
      exclusive (replay (firstn k (duty_writes w')) (setup (snd boot))).
Proof.
  intros Hfuel. unfold sketch.
  destruct (loops_demo_passes n fuel (setup (snd boot)) Hfuel)
    as [w' [Hrun [_ [Hdw [Hser [_ [_ Hd]]]]]]].
  exists w'. split; [exact Hrun|].
  change (duty_writes (setup (snd boot))) with (@nil duty_write) in Hdw.
  simpl app in Hdw.
  split; [rewrite Hser; reflexivity|].
  split; [exact Hdw|].
  rewrite Hdw. split; [apply repeat_demo_duties|].
  split; [exact Hd|].
  apply replay_prefix_exclusive.
  - left. reflexivity.
  - apply repeat_demo_trace.
Qed.

Lemma sketch_run_witness :
  (12 <= 12)%nat /\
  exists w',
    sketch 2 12 = Some w' /\
    duty_writes w' = List.concat (repeat demo_writes 2).
Proof.
  split; [lia|].
  destruct (sketch_run 2 12) as [w' [H1 [_ [H3 _]]]]; [lia|].
  exists w'. split; assumption.
Defined.
